(** * The mcp-mail process bridge ([bridging_mail_mcp.py])

    The script spawns one child process, relays three text streams between
    itself and the child on three daemon threads, forwards SIGINT/SIGTERM as
    a termination request, and exits with the child's exit code.

    The embedding is a small-step machine.  Every source statement of
    [main], of [handle_termination] and of the three relay functions is a
    computation in an exception-and-state monad over one shared [state];
    the scheduler interleaves the main thread, the relay threads, signal
    deliveries and the child's exit in any order ([action], [step], [run]).
    What the environment decides (whether the spawn succeeds, what text the
    streams carry, which stream operation fails) is a [world].

    Granularity: one source statement is one atomic step; a signal handler
    runs between two statements of the main thread, as CPython runs Python
    level handlers.  Text is modelled at the level of the [str] objects the
    [for] loops yield and [write] receives. *)

From stdpp Require Import base list gmap strings.
From Stdlib Require Import ZArith Ascii.

Local Open Scope Z_scope.
Local Open Scope nat_scope.

(* ===================================================================== *)
(** ** Text files and line iteration *)
(* ===================================================================== *)

Definition LF : ascii := "010"%char.

(** [f.readline()]: the text up to and including the first line feed, and
    what is left after it. *)
Fixpoint readline (s : string) : string * string :=
  match s with
  | EmptyString => (EmptyString, EmptyString)
  | String c rest =>
      if Ascii.eqb c LF then (String c EmptyString, rest)
      else let '(l, r) := readline rest in (String c l, r)
  end.

(** All the lines a [for line in f] loop yields on a file holding [s]. *)
Fixpoint file_lines (s : string) : list string :=
  match s with
  | EmptyString => []
  | String c rest =>
      if Ascii.eqb c LF then String c EmptyString :: file_lines rest
      else match file_lines rest with
           | [] => [String c EmptyString]
           | l :: ls => String c l :: ls
           end
  end.


(** A readable text file: the text not read yet and the number of lines
    already handed out. *)
Record rfile := RFile { rf_text : string; rf_pos : nat }.

(* ===================================================================== *)
(** ** Exceptions, signals, events *)
(* ===================================================================== *)

Inductive signum := SIGINT | SIGTERM.

Inductive errno := ENOENT | EACCES | EPIPE | EIO | ESRCH.

Inductive exn :=
| OSError (code : errno)
| AttributeError
| KeyboardInterrupt
| SystemExit (code : Z).

(** The three relay functions of [main]. *)
Inductive relay := Out | Err | In.

(** Where a relay writes: the bridge's own stdout and stderr, or the stdin
    pipe of the child with the given pid. *)
Inductive fd := Stdout | Stderr | ChildStdin (pid : nat).

Inductive io_op := Wr (line : string) | Fl.

(** Observable effects, in the global order in which they happen. *)
Inductive event :=
| EvSpawn (pid : nat)
| EvSpawnFailed (e : errno)
| EvHandler (sg : option signum)       (* handle_termination(sg, frame) is entered *)
| EvPoll (pid : nat)
| EvTerminate (pid : nat) (delivered : bool)
| EvWait (pid : nat) (code : Z)
| EvIO (f : fd) (op : io_op)
| EvExit (code : Z).

#[global] Instance signum_eq_dec : EqDecision signum.
Proof. solve_decision. Defined.
#[global] Instance errno_eq_dec : EqDecision errno.
Proof. solve_decision. Defined.
#[global] Instance exn_eq_dec : EqDecision exn.
Proof. solve_decision. Defined.
#[global] Instance relay_eq_dec : EqDecision relay.
Proof. solve_decision. Defined.
#[global] Instance fd_eq_dec : EqDecision fd.
Proof. solve_decision. Defined.
#[global] Instance io_op_eq_dec : EqDecision io_op.
Proof. solve_decision. Defined.
#[global] Instance event_eq_dec : EqDecision event.
Proof. solve_decision. Defined.

(* ===================================================================== *)
(** ** Processes, threads, the bridge's state *)
(* ===================================================================== *)

(** A child process, as the operating system holds it. *)
Record child := Child {
  c_args : list string;
  c_env : gmap string string;
  c_creationflags : Z;
  c_stdout : rfile;            (* read end of the child's stdout pipe *)
  c_stderr : rfile;            (* read end of the child's stderr pipe *)
  c_returncode : option Z;     (* None while the child is running *)
  c_terminated : nat           (* termination requests received *)
}.

(** Why a relay function returned. *)
Inductive finish :=
| EndOfStream                  (* the [for] loop ran out of lines *)
| Break                        (* [if line == "": break] *)
| Swallowed (e : exn).         (* [except: pass] *)

(** Program counter of a relay thread. *)
Inductive relay_pc :=
| Unstarted
| AtFor                        (* about to fetch the next line *)
| AtWrite (line : string)      (* about to [write(line)] *)
| AtFlush                      (* about to [flush()] *)
| Finished (why : finish)
| Crashed (e : exn).           (* an exception left the thread function *)

Record thread := Thread {
  th_target : relay;
  th_daemon : bool;
  th_pc : relay_pc
}.

Inductive pstatus :=
| Running
| Exiting (code : Z)           (* exit requested, joining non-daemon threads *)
| Exited (code : Z)
| Killed (sg : signum).        (* default disposition of a signal *)

Record state := State {
  proc : option nat;           (* line 8: the module global *)
  handlers : list signum;      (* signals bound to handle_termination *)
  main_pc : nat;
  return_code : option Z;
  t_out : option thread;
  t_err : option thread;
  t_in : option thread;
  sys_stdin : rfile;
  status : pstatus;
  procs : list child;          (* every process spawned so far; pid = index *)
  trace : list event
}.

(** What the environment decides. *)
Record world := World {
  os_environ : gmap string string;
  spawn_error : option errno;          (* Some e: Popen raises OSError e *)
  child_stdout_text : string;
  child_stderr_text : string;
  stdin_text : string;
  read_fault : relay -> nat -> bool;   (* the n-th fetch of the relay's source raises *)
  write_fault : relay -> nat -> bool;  (* the n-th operation on the relay's sink raises *)
  terminate_fault : bool               (* proc.terminate() raises *)
}.

Definition set_proc v s := State v (handlers s) (main_pc s) (return_code s) (t_out s) (t_err s) (t_in s) (sys_stdin s) (status s) (procs s) (trace s).
Definition set_handlers v s := State (proc s) v (main_pc s) (return_code s) (t_out s) (t_err s) (t_in s) (sys_stdin s) (status s) (procs s) (trace s).
Definition set_main_pc v s := State (proc s) (handlers s) v (return_code s) (t_out s) (t_err s) (t_in s) (sys_stdin s) (status s) (procs s) (trace s).
Definition set_return_code v s := State (proc s) (handlers s) (main_pc s) v (t_out s) (t_err s) (t_in s) (sys_stdin s) (status s) (procs s) (trace s).
Definition set_t_out v s := State (proc s) (handlers s) (main_pc s) (return_code s) v (t_err s) (t_in s) (sys_stdin s) (status s) (procs s) (trace s).
Definition set_t_err v s := State (proc s) (handlers s) (main_pc s) (return_code s) (t_out s) v (t_in s) (sys_stdin s) (status s) (procs s) (trace s).
Definition set_t_in v s := State (proc s) (handlers s) (main_pc s) (return_code s) (t_out s) (t_err s) v (sys_stdin s) (status s) (procs s) (trace s).
Definition set_sys_stdin v s := State (proc s) (handlers s) (main_pc s) (return_code s) (t_out s) (t_err s) (t_in s) v (status s) (procs s) (trace s).
Definition set_status v s := State (proc s) (handlers s) (main_pc s) (return_code s) (t_out s) (t_err s) (t_in s) (sys_stdin s) v (procs s) (trace s).
Definition set_procs v s := State (proc s) (handlers s) (main_pc s) (return_code s) (t_out s) (t_err s) (t_in s) (sys_stdin s) (status s) v (trace s).
Definition set_trace v s := State (proc s) (handlers s) (main_pc s) (return_code s) (t_out s) (t_err s) (t_in s) (sys_stdin s) (status s) (procs s) v.

Definition set_c_stdout v c := Child (c_args c) (c_env c) (c_creationflags c) v (c_stderr c) (c_returncode c) (c_terminated c).
Definition set_c_stderr v c := Child (c_args c) (c_env c) (c_creationflags c) (c_stdout c) v (c_returncode c) (c_terminated c).
Definition set_c_returncode v c := Child (c_args c) (c_env c) (c_creationflags c) (c_stdout c) (c_stderr c) v (c_terminated c).
Definition set_c_terminated v c := Child (c_args c) (c_env c) (c_creationflags c) (c_stdout c) (c_stderr c) (c_returncode c) v.

Definition set_th_pc v t := Thread (th_target t) (th_daemon t) v.

(** The thread object bound to each of main's three local variables. *)
Definition thread_of (r : relay) (s : state) : option thread :=
  match r with Out => t_out s | Err => t_err s | In => t_in s end.

Definition set_thread (r : relay) (v : option thread) (s : state) : state :=
  match r with Out => set_t_out v s | Err => set_t_err v s | In => set_t_in v s end.

(** What has been written to a descriptor so far: its part of the trace. *)
Fixpoint fd_log (f : fd) (t : list event) : list io_op :=
  match t with
  | [] => []
  | EvIO g op :: t' => if decide (g = f) then op :: fd_log f t' else fd_log f t'
  | _ :: t' => fd_log f t'
  end.


(** Every line written and then flushed, in order. *)
Definition line_by_line (ls : list string) : list io_op :=
  flat_map (fun l => [Wr l; Fl]) ls.

(* ===================================================================== *)
(** ** The monad of statements *)
(* ===================================================================== *)

(** A statement runs on the shared state and either completes with a value
    or raises; the state it leaves is kept in both cases. *)
Definition M (A : Type) : Type := state -> (exn + A) * state.

Definition ret {A} (a : A) : M A := fun s => (inr a, s).

Definition bind {A B} (m : M A) (k : A -> M B) : M B :=
  fun s => match m s with
           | (inr a, s') => k a s'
           | (inl e, s') => (inl e, s')
           end.

Definition raise {A} (e : exn) : M A := fun s => (inl e, s).

Definition get {A} (f : state -> A) : M A := fun s => (inr (f s), s).

Definition modify (f : state -> state) : M unit := fun s => (inr tt, f s).

(** [try: body except: handler] *)
Definition try_except {A} (body : M A) (handler : exn -> M A) : M A :=
  fun s => match body s with
           | (inl e, s') => handler e s'
           | r => r
           end.

#[global] Instance M_ret : MRet M := @ret.
#[global] Instance M_bind : MBind M := fun A B k m => bind m k.

Definition emit (e : event) : M unit :=
  modify (fun s => set_trace (trace s ++ [e]) s).

(* ===================================================================== *)
(** ** Library operations the script calls *)
(* ===================================================================== *)

(** [next(f)] of a text file: the next line, [None] at end of stream
    (StopIteration), or an exception when the read fails. *)
Definition next (fault : nat -> bool) (f : rfile) : exn + option (string * rfile) :=
  if fault (rf_pos f) then inl (OSError EIO)
  else match rf_text f with
       | EmptyString => inr None
       | String _ _ =>
           let '(l, r) := readline (rf_text f) in
           inr (Some (l, RFile r (S (rf_pos f))))
       end.

(** The process a Popen handle stands for. *)
Definition the_child (pid : nat) : M child :=
  fun s => match procs s !! pid with
           | Some c => (inr c, s)
           | None => (inl (OSError ESRCH), s)
           end.

Definition update_child (pid : nat) (f : child -> child) : M unit :=
  modify (fun s => set_procs (alter f pid (procs s)) s).

(** Attribute access on the global [proc]: fails while it is [None]. *)
Definition proc_handle : M nat :=
  p ← get proc;
  match p with
  | Some pid => ret pid
  | None => raise AttributeError
  end.

(** [subprocess.Popen(args, stdin=PIPE, stdout=PIPE, stderr=PIPE, env=env,
    creationflags=flags, text=True, bufsize=1)]: the new process gets the
    next free pid, exactly the environment passed as [env], and the two
    pipes it will write to. *)
Definition Popen (w : world) (args : list string) (env : gmap string string)
    (flags : Z) : M nat :=
  match spawn_error w with
  | Some e => emit (EvSpawnFailed e) ;; raise (OSError e)
  | None =>
      pid ← get (fun s => length (procs s));
      modify (fun s => set_procs (procs s ++
        [Child args env flags
           (RFile (child_stdout_text w) 0) (RFile (child_stderr_text w) 0)
           None 0]) s) ;;
      emit (EvSpawn pid) ;;
      ret pid
  end.

(** [proc.poll()]: [None] while the child runs, else its return code. *)
Definition poll (pid : nat) : M (option Z) :=
  c ← the_child pid;
  emit (EvPoll pid) ;;
  ret (c_returncode c).

(** [proc.terminate()]: ask the child to stop; may raise. *)
Definition terminate (w : world) (pid : nat) : M unit :=
  if terminate_fault w then
    emit (EvTerminate pid false) ;; raise (OSError EACCES)
  else
    update_child pid (fun c => set_c_terminated (S (c_terminated c)) c) ;;
    emit (EvTerminate pid true).

(** How the blocking [proc.wait()] ends. *)
Inductive wait_outcome := WaitReturns (code : Z) | WaitInterrupted.

Definition wait (o : wait_outcome) (pid : nat) : M Z :=
  match o with
  | WaitReturns k => emit (EvWait pid k) ;; ret k
  | WaitInterrupted => raise KeyboardInterrupt
  end.

Definition sys_exit {A} (code : Z) : M A := raise (SystemExit code).

Definition signal_signal (sg : signum) : M unit :=
  modify (fun s => set_handlers (sg :: handlers s) s).

(** [f.write(line)] and [f.flush()] on the sink of relay [r]. *)
Definition fd_op (w : world) (r : relay) (f : fd) (op : io_op) : M unit :=
  n ← get (fun s => length (fd_log f (trace s)));
  if write_fault w r n then raise (OSError EPIPE) else emit (EvIO f op).

(* ===================================================================== *)
(** ** The script *)
(* ===================================================================== *)

Definition CREATE_NO_WINDOW : Z := 0x08000000%Z.

Definition command : list string :=
  ["node"; "C:/Users/Shuakami/mcp-mail/dist/index.js"]%string.

(** Lines 10-16. *)
Definition handle_termination (w : world) (sg : option signum) : M unit :=
  emit (EvHandler sg) ;;
  p ← get proc;
  match p with
  | Some pid =>                                   (* if proc and ...      *)
      rc ← poll pid;                           (* proc.poll() is None  *)
      match rc with
      | None => try_except (terminate w pid) (fun _ => ret tt)
      | Some _ => ret tt
      end
  | None => ret tt
  end ;;
  sys_exit 0.

(** The body shared by the three relay functions, one statement per step:
    [for line in <source>] (with the [if line == "": break] of the two
    output relays), [<sink>.write(line)], [<sink>.flush()]. *)
Definition for_loop (check_empty : bool) (fetch : M (option string))
    (write : string -> M unit) (flush : M unit) (pc : relay_pc) : M relay_pc :=
  match pc with
  | AtFor =>
      r ← fetch;
      match r with
      | None => ret (Finished EndOfStream)
      | Some line =>
          if check_empty && bool_decide (line = EmptyString)
          then ret (Finished Break)
          else ret (AtWrite line)
      end
  | AtWrite line => write line ;; ret AtFlush
  | AtFlush => flush ;; ret AtFor
  | _ => ret pc
  end.

(** [try: ... except: pass] around the whole loop. *)
Definition except_pass (body : M relay_pc) : M relay_pc :=
  try_except body (fun e => ret (Finished (Swallowed e))).

Definition fetch_child (w : world) (r : relay) (getf : child -> rfile)
    (setf : rfile -> child -> child) : M (option string) :=
  pid ← proc_handle;
  c ← the_child pid;
  match next (read_fault w r) (getf c) with
  | inl e => raise e
  | inr None => ret None
  | inr (Some (line, f')) => update_child pid (setf f') ;; ret (Some line)
  end.

Definition fetch_stdin (w : world) : M (option string) :=
  f ← get sys_stdin;
  match next (read_fault w In) f with
  | inl e => raise e
  | inr None => ret None
  | inr (Some (line, f')) => modify (set_sys_stdin f') ;; ret (Some line)
  end.

(** Lines 34-42. *)
Definition read_stdout (w : world) (pc : relay_pc) : M relay_pc :=
  except_pass (for_loop true
    (fetch_child w Out c_stdout set_c_stdout)         (* for line in proc.stdout *)
    (fun line => fd_op w Out Stdout (Wr line))        (* sys.stdout.write(line)  *)
    (fd_op w Out Stdout Fl)                           (* sys.stdout.flush()      *)
    pc).

(** Lines 44-52. *)
Definition read_stderr (w : world) (pc : relay_pc) : M relay_pc :=
  except_pass (for_loop true
    (fetch_child w Err c_stderr set_c_stderr)         (* for line in proc.stderr *)
    (fun line => fd_op w Err Stderr (Wr line))        (* sys.stderr.write(line)  *)
    (fd_op w Err Stderr Fl)                           (* sys.stderr.flush()      *)
    pc).

(** Lines 54-60. *)
Definition forward_stdin (w : world) (pc : relay_pc) : M relay_pc :=
  except_pass (for_loop false
    (fetch_stdin w)                                              (* for line in sys.stdin  *)
    (fun line => pid ← proc_handle; fd_op w In (ChildStdin pid) (Wr line))
                                                                 (* proc.stdin.write(line) *)
    (pid ← proc_handle; fd_op w In (ChildStdin pid) Fl)       (* proc.stdin.flush()     *)
    pc).

Definition target (w : world) (r : relay) : relay_pc -> M relay_pc :=
  match r with
  | Out => read_stdout w
  | Err => read_stderr w
  | In => forward_stdin w
  end.

(** [threading.Thread(target=..., daemon=...)] and [t.start()]. *)
Definition new_thread (r : relay) (daemon : bool) : thread := Thread r daemon Unstarted.

Definition start (slot : relay) : M unit :=
  modify (fun s => set_thread slot (set_th_pc AtFor <$> thread_of slot s) s).

(** Lines 71-74. *)
Definition wait_statement (w : world) (o : wait_outcome) : M unit :=
  try_except
    (pid ← proc_handle;
     rc ← wait o pid;
     modify (set_return_code (Some rc)))                 (* return_code = proc.wait() *)
    (fun e => match e with
              | KeyboardInterrupt => handle_termination w None
              | _ => raise e
              end).

Definition pc_spawn : nat := 2.
Definition pc_wait : nat := 10.
Definition pc_exit : nat := 11.

(** The statements of [main] (lines 20-76), by position. *)
Definition main_statement (w : world) (pc : nat) (o : wait_outcome) : M unit :=
  match pc with
  | 0 => signal_signal SIGINT                                        (* line 20 *)
  | 1 => signal_signal SIGTERM                                       (* line 21 *)
  | 2 => pid ← Popen w command (os_environ w) CREATE_NO_WINDOW;   (* lines 23-32 *)
         modify (set_proc (Some pid))
  | 3 => modify (set_t_out (Some (new_thread Out true)))             (* line 62 *)
  | 4 => modify (set_t_err (Some (new_thread Err true)))             (* line 63 *)
  | 5 => modify (set_t_in (Some (new_thread In true)))               (* line 64 *)
  | 6 => start Out                                                   (* line 66 *)
  | 7 => start Err                                                   (* line 67 *)
  | 8 => start In                                                    (* line 68 *)
  | 9 => modify (set_return_code None)                               (* line 70 *)
  | 10 => wait_statement w o                                         (* lines 71-74 *)
  | 11 => rc ← get return_code;                                   (* line 76 *)
          sys_exit (match rc with Some k => k | None => 0%Z end)
  | _ => ret tt
  end.

(* ===================================================================== *)
(** ** The interpreter and the scheduler *)
(* ===================================================================== *)

(** A started thread that has not returned. *)
Definition alive (t : thread) : bool :=
  match th_pc t with
  | AtFor | AtWrite _ | AtFlush => true
  | _ => false
  end.

(** Interpreter shutdown joins the threads that are alive and not daemon. *)
Definition joined_at_exit (s : state) : bool :=
  existsb (fun o => match o with
                    | Some t => alive t && negb (th_daemon t)
                    | None => false
                    end) [t_out s; t_err s; t_in s].

(** Exit status of an exception nobody caught in the main thread. *)
Definition uncaught (e : exn) : Z :=
  match e with
  | SystemExit code => code
  | _ => 1%Z
  end.

Definition py_exit (code : Z) (s : state) : state :=
  let s' := set_trace (trace s ++ [EvExit code]) s in
  if joined_at_exit s' then set_status (Exiting code) s'
  else set_status (Exited code) s'.

(** Run one statement of the main thread. *)
Definition main_exec (m : M unit) (s : state) : state :=
  match m s with
  | (inr _, s') => set_main_pc (S (main_pc s')) s'
  | (inl e, s') => py_exit (uncaught e) s'
  end.

(** The return code [proc.wait()] would find now, if the child is done. *)
Definition wait_ready (s : state) : option Z :=
  p ← proc s; c ← procs s !! p; c_returncode c.

Definition main_step (w : world) (s : state) : state :=
  if decide (main_pc s = pc_wait) then
    match proc s, wait_ready s with
    | Some _, None => s                                        (* blocked *)
    | _, Some k => main_exec (main_statement w (main_pc s) (WaitReturns k)) s
    | None, None => main_exec (main_statement w (main_pc s) (WaitReturns 0%Z)) s
    end
  else main_exec (main_statement w (main_pc s) (WaitReturns 0%Z)) s.

(** Run one statement of the thread held in [slot]. *)
Definition relay_step (w : world) (slot : relay) (s : state) : state :=
  match thread_of slot s with
  | Some t =>
      if alive t then
        match target w (th_target t) (th_pc t) s with
        | (inr pc', s') => set_thread slot (Some (set_th_pc pc' t)) s'
        | (inl e, s') => set_thread slot (Some (set_th_pc (Crashed e) t)) s'
        end
      else s
  | None => s
  end.

(** The operating system delivers a signal: the installed handler runs in
    the main thread and what it raises leaves [main] uncaught; without a
    handler the default disposition ends the process. *)
Definition deliver (w : world) (sg : signum) (s : state) : state :=
  if decide (sg ∈ handlers s) then
    match handle_termination w (Some sg) s with
    | (inr _, s') => s'
    | (inl e, s') => py_exit (uncaught e) s'
    end
  else set_status (Killed sg) s.

(** The child process ends by itself with the given code. *)
Definition child_exit (pid : nat) (code : Z) (s : state) : state :=
  match procs s !! pid with
  | Some c =>
      match c_returncode c with
      | None => set_procs (alter (set_c_returncode (Some code)) pid (procs s)) s
      | Some _ => s
      end
  | None => s
  end.

Inductive action :=
| Main                                  (* next statement of main *)
| Relay (slot : relay)                  (* next statement of a relay thread *)
| Deliver (sg : signum)                 (* a signal arrives *)
| InterruptWait                         (* KeyboardInterrupt inside proc.wait() *)
| ChildExit (pid : nat) (code : Z).     (* the child terminates *)

Definition step (w : world) (a : action) (s : state) : state :=
  match a, status s with
  | ChildExit pid code, _ => child_exit pid code s
  | Main, Running => main_step w s
  | Relay slot, Running => relay_step w slot s
  | Relay slot, Exiting code =>
      let s' := relay_step w slot s in
      if joined_at_exit s' then s' else set_status (Exited code) s'
  | Deliver sg, Running => deliver w sg s
  | InterruptWait, Running =>
      if decide (main_pc s = pc_wait)
      then main_exec (main_statement w (main_pc s) WaitInterrupted) s
      else s
  | _, _ => s
  end.

Definition init (w : world) : state :=
  State None [] 0 None None None None (RFile (stdin_text w) 0) Running [] [].

Definition run (w : world) (sched : list action) : state :=
  fold_left (fun s a => step w a s) sched (init w).

Definition run_from (w : world) (sched : list action) (s : state) : state :=
  fold_left (fun s a => step w a s) sched s.


(* ===================================================================== *)
(** ** What every reachable state satisfies (definitions) *)
(* ===================================================================== *)

(** The signal handlers installed once [main] has run [pc] statements. *)
Definition handlers_at (pc : nat) : list signum :=
  match pc with 0 => [] | 1 => [SIGINT] | _ => [SIGTERM; SIGINT] end.

(** The thread object of relay [r] exists exactly after statement
    [created], is started exactly after statement [started], runs the
    function it is named after and is a daemon. *)
Definition thread_ctrl (r : relay) (created started : nat) (s : state) : Prop :=
  match thread_of r s with
  | None => main_pc s ≤ created
  | Some t => created < main_pc s ∧ th_target t = r ∧ th_daemon t = true ∧
              (th_pc t = Unstarted ↔ main_pc s ≤ started)
  end.

(** What Popen fixed for a child once and for all. *)
Definition child_static (w : world) (c : child) : Prop :=
  c_args c = command ∧ c_env c = os_environ w ∧ c_creationflags c = CREATE_NO_WINDOW.

Definition pc_of (o : option thread) : relay_pc :=
  match o with Some t => th_pc t | None => Unstarted end.

(** The text a relay reads, the descriptor it writes, the file it reads. *)
Definition text_of (w : world) (r : relay) : string :=
  match r with
  | Out => child_stdout_text w
  | Err => child_stderr_text w
  | In => stdin_text w
  end.

Definition sink_of (r : relay) : fd :=
  match r with Out => Stdout | Err => Stderr | In => ChildStdin 0 end.

Definition source_of (r : relay) (s : state) : option rfile :=
  match r with
  | Out => c_stdout <$> procs s !! 0
  | Err => c_stderr <$> procs s !! 0
  | In => Some (sys_stdin s)
  end.

(** Some stream operation of relay [r] fails in world [w]. *)
Definition faulty (w : world) (r : relay) : Prop :=
  ∃ n, read_fault w r n = true ∨ write_fault w r n = true.

(** How far a relay has come: [T] is the whole text of its source, [f] the
    source now, [log] what its sink has received. *)
Definition relay_inv (flt : Prop) (T : string) (f : rfile) (log : list io_op)
    (pc : relay_pc) : Prop :=
  match pc with
  | Unstarted => f = RFile T 0 ∧ log = []
  | AtFor =>
      ∃ done, file_lines T = done ++ file_lines (rf_text f) ∧ log = line_by_line done
  | AtWrite l =>
      ∃ done, file_lines T = done ++ l :: file_lines (rf_text f) ∧
              log = line_by_line done
  | AtFlush =>
      ∃ done l, file_lines T = done ++ l :: file_lines (rf_text f) ∧
                log = line_by_line done ++ [Wr l]
  | Finished EndOfStream =>
      rf_text f = EmptyString ∧ log = line_by_line (file_lines T)
  | Finished Break => False
  | Finished (Swallowed _) =>
      flt ∧
      ∃ done rest, file_lines T = done ++ rest ∧
        (log = line_by_line done ∨
         ∃ l rest', rest = l :: rest' ∧ log = line_by_line done ++ [Wr l])
  | Crashed _ => False
  end.

Definition relay_data (w : world) (r : relay) (s : state) : Prop :=
  match source_of r s with
  | Some f => relay_inv (faulty w r) (text_of w r) f
                (fd_log (sink_of r) (trace s)) (pc_of (thread_of r s))
  | None => fd_log (sink_of r) (trace s) = [] ∧ pc_of (thread_of r s) = Unstarted
  end.

(** The process an event is about, if any. *)
Definition event_pid (e : event) : option nat :=
  match e with
  | EvSpawn p | EvPoll p | EvTerminate p _ | EvWait p _ | EvIO (ChildStdin p) _ => Some p
  | _ => None
  end.

(** Successful and failed runs of the spawn operation in a trace. *)
Fixpoint spawned (t : list event) : nat :=
  match t with
  | [] => 0
  | EvSpawn _ :: t' => S (spawned t')
  | _ :: t' => spawned t'
  end.

Fixpoint failed (t : list event) : nat :=
  match t with
  | [] => 0
  | EvSpawnFailed _ :: t' => S (failed t')
  | _ :: t' => failed t'
  end.

(** Termination requests sent, and completed waits, in a trace. *)
Fixpoint terminations (t : list event) : nat :=
  match t with
  | [] => 0
  | EvTerminate _ _ :: t' => S (terminations t')
  | _ :: t' => terminations t'
  end.

Fixpoint waits (t : list event) : nat :=
  match t with
  | [] => 0
  | EvWait _ _ :: t' => S (waits t')
  | _ :: t' => waits t'
  end.

Definition is_handler (e : event) : bool :=
  match e with EvHandler _ => true | _ => false end.

(** [handle_termination] was entered at some point of the trace. *)
Definition handler_called (t : list event) : bool := existsb is_handler t.

(** How the bridge can have ended: through the handler with status 0,
    through a failed spawn with status 1, or through line 76 with the
    return code stored by line 72. *)
Definition status_inv (w : world) (s : state) : Prop :=
  match status s with
  | Running | Killed _ => handler_called (trace s) = false ∧ failed (trace s) = 0
  | Exiting _ => False
  | Exited c =>
      (handler_called (trace s) = true ∧ failed (trace s) = 0 ∧ c = 0%Z) ∨
      (handler_called (trace s) = false ∧ failed (trace s) = 1 ∧ c = 1%Z ∧
         main_pc s = pc_spawn ∧ spawn_error w ≠ None) ∨
      (handler_called (trace s) = false ∧ failed (trace s) = 0 ∧
         main_pc s = pc_exit ∧ return_code s = Some c)
  end.

Record inv (w : world) (s : state) : Prop := Inv {
  ci_pc : main_pc s ≤ pc_exit;
  ci_handlers : handlers s = handlers_at (main_pc s);
  ci_proc : proc s = if decide (pc_spawn < main_pc s) then Some 0 else None;
  ci_procs : length (procs s) = if decide (pc_spawn < main_pc s) then 1 else 0;
  ci_spawned : pc_spawn < main_pc s → spawn_error w = None;
  ci_static : Forall (child_static w) (procs s);
  ci_out : thread_ctrl Out 3 6 s;
  ci_err : thread_ctrl Err 4 7 s;
  ci_in : thread_ctrl In 5 8 s;
  ci_rc : if decide (main_pc s = pc_exit)
          then ∃ k, return_code s = Some k ∧ wait_ready s = Some k
          else return_code s = None;
  di_out : relay_data w Out s;
  di_err : relay_data w Err s;
  di_in : relay_data w In s;
  di_other : ∀ pid, pid ≠ 0 → fd_log (ChildStdin pid) (trace s) = [];
  ti_pids : Forall (fun e => ∀ p, event_pid e = Some p → proc s = Some p) (trace s);
  ti_spawned : spawned (trace s) = length (procs s);
  ti_status : status_inv w s
}.


(* ===================================================================== *)
(** ** Vocabulary of the statements *)
(* ===================================================================== *)

(** An action through which [handle_termination] gets to run. *)
Definition interrupts (a : action) : bool :=
  match a with Deliver _ | InterruptWait => true | _ => false end.

Definition uninterrupted (sched : list action) : bool :=
  forallb (fun a => negb (interrupts a)) sched.

(** How many times the schedule lets the main thread run. *)
Fixpoint mains (sched : list action) : nat :=
  match sched with
  | [] => 0
  | Main :: sched' => S (mains sched')
  | _ :: sched' => mains sched'
  end.


(** Some process spawned by the bridge has not terminated. *)
Definition child_running (s : state) : bool :=
  existsb (fun c => bool_decide (c_returncode c = None)) (procs s).

(** The part of the state the exit status is decided from. *)
Definition ctl (s : state) :
    option nat * list signum * nat * option Z * pstatus * list (option Z) * list nat :=
  (proc s, handlers s, main_pc s, return_code s, status s,
   c_returncode <$> procs s, c_terminated <$> procs s).

(** What belongs to one relay: its thread, its source, what it has written. *)
Definition rview (r : relay) (s : state) : option thread * option rfile * list io_op :=
  (thread_of r s, source_of r s, fd_log (sink_of r) (trace s)).



(** Worlds and schedules used as concrete instances. *)
Definition no_fault : relay -> nat -> bool := fun _ _ => false.

Definition hello : string := String "h" (String "i" (String LF EmptyString)).

Definition quiet_world : world :=
  World ∅ None EmptyString EmptyString EmptyString no_fault no_fault false.

Definition echo_world : world :=
  World ∅ None hello hello hello no_fault no_fault false.

Definition missing_world : world :=
  World ∅ (Some ENOENT) EmptyString EmptyString EmptyString no_fault no_fault false.

(** [main] up to the blocking wait. *)
Definition startup : list action := repeat Main 10.





(** Every write to the bridge's stdout fails (its reader is gone). *)
Definition broken_stdout_world : world :=
  World ∅ None hello hello hello no_fault
    (fun r _ => match r with Out => true | _ => false end) false.

(** The three relays run to the end of their loops, then the child exits
    with code 5 and [main] returns from the wait and exits. *)
Definition full_run : list action :=
  startup ++ repeat (Relay Out) 4 ++ repeat (Relay Err) 4 ++ repeat (Relay In) 4 ++
  [ChildExit 0 5; Main; Main].




(** The exceptions that stand for a failed stream operation: a failed read
    and a failed write. *)
Definition stream_error (e : exn) : Prop := e = OSError EIO ∨ e = OSError EPIPE.

(** Every exception a relay has swallowed so far is a stream failure. *)
Definition swallowed_ok (s : state) : Prop :=
  ∀ r e, pc_of (thread_of r s) = Finished (Swallowed e) → stream_error e.


(* ===================================================================== *)
(** ** Lines of a text file *)
(* ===================================================================== *)

Lemma file_lines_readline c s :
  file_lines (String c s) =
    (readline (String c s)).1 :: file_lines (readline (String c s)).2.
Proof.
  revert c. induction s as [|c' s IH]; intros c; simpl.
  - destruct (Ascii.eqb c LF); reflexivity.
  - destruct (Ascii.eqb c LF) eqn:E; [reflexivity|].
    specialize (IH c'). simpl in IH. rewrite IH.
    destruct (Ascii.eqb c' LF); simpl; [reflexivity|].
    destruct (readline s); reflexivity.
Qed.

(** A file iterator never yields the empty string. *)
Lemma file_lines_nonempty s : Forall (fun l => l ≠ EmptyString) (file_lines s).
Proof.
  induction s as [|c s IH]; simpl; [constructor|].
  destruct (Ascii.eqb c LF).
  - constructor; [discriminate | exact IH].
  - destruct (file_lines s) as [|l ls]; [repeat constructor; discriminate|].
    inversion IH; subst. constructor; [discriminate | assumption].
Qed.


Lemma next_inv fault f :
  match next fault f with
  | inl _ => fault (rf_pos f) = true
  | inr None => rf_text f = EmptyString
  | inr (Some (l, f')) =>
      file_lines (rf_text f) = l :: file_lines (rf_text f') ∧ l ≠ EmptyString
  end.
Proof.
  unfold next. destruct (fault (rf_pos f)); [done|].
  destruct (rf_text f) as [|c s] eqn:E; [done|].
  pose proof (file_lines_readline c s) as H.
  pose proof (file_lines_nonempty (String c s)) as Hne.
  destruct (readline (String c s)) as [l r]; simpl in *.
  split; [done|]. rewrite H in Hne. by inversion Hne.
Qed.

Lemma line_by_line_snoc done l :
  line_by_line (done ++ [l]) = (line_by_line done ++ [Wr l]) ++ [Fl].
Proof. unfold line_by_line. rewrite flat_map_app. simpl. by rewrite <- app_assoc. Qed.



(* ===================================================================== *)
(** ** Traces grow at the end *)
(* ===================================================================== *)

Lemma fd_log_snoc f t e :
  fd_log f (t ++ [e]) =
    fd_log f t ++ match e with
                  | EvIO g op => if decide (g = f) then [op] else []
                  | _ => []
                  end.
Proof.
  induction t as [|e' t IH]; simpl.
  - destruct e; try done; by case_decide.
  - destruct e'; rewrite ?IH; try done; by case_decide.
Qed.

Lemma spawned_snoc t e :
  spawned (t ++ [e]) = spawned t + match e with EvSpawn _ => 1 | _ => 0 end.
Proof. induction t as [|e' t IH]; simpl; [by destruct e|]. destruct e'; rewrite ?IH; done. Qed.

Lemma failed_snoc t e :
  failed (t ++ [e]) = failed t + match e with EvSpawnFailed _ => 1 | _ => 0 end.
Proof. induction t as [|e' t IH]; simpl; [by destruct e|]. destruct e'; rewrite ?IH; done. Qed.

Lemma terminations_snoc t e :
  terminations (t ++ [e]) = terminations t + match e with EvTerminate _ _ => 1 | _ => 0 end.
Proof. induction t as [|e' t IH]; simpl; [by destruct e|]. destruct e'; rewrite ?IH; done. Qed.

Lemma waits_snoc t e :
  waits (t ++ [e]) = waits t + match e with EvWait _ _ => 1 | _ => 0 end.
Proof. induction t as [|e' t IH]; simpl; [by destruct e|]. destruct e'; rewrite ?IH; done. Qed.

Lemma handler_called_snoc t e :
  handler_called (t ++ [e]) = handler_called t || is_handler e.
Proof. unfold handler_called. rewrite existsb_app. simpl. by rewrite orb_false_r. Qed.

(* ===================================================================== *)
(** ** The invariant holds in every reachable state *)
(* ===================================================================== *)

Ltac unfold_machine :=
  unfold step, main_step, relay_step, deliver, child_exit, main_exec, py_exit,
    joined_at_exit, wait_ready, main_statement, wait_statement,
    handle_termination, target, read_stdout, read_stderr, forward_stdin,
    except_pass, for_loop, fetch_child, fetch_stdin, fd_op, start, new_thread,
    signal_signal, sys_exit, wait, terminate, poll, Popen, proc_handle,
    update_child, the_child, emit, try_except, modify, get, raise,
    mbind, M_bind, bind, mret, M_ret, ret, thread_of, set_thread, alive,
    uncaught in *.

Ltac unfold_relay :=
  unfold step, relay_step, target, read_stdout, read_stderr, forward_stdin,
    except_pass, for_loop, fetch_child, fetch_stdin, fd_op, proc_handle,
    update_child, the_child, emit, try_except, modify, get, raise,
    mbind, M_bind, bind, mret, M_ret, ret, thread_of, set_thread, alive in *.

Ltac unfold_inv :=
  unfold thread_ctrl, relay_data, source_of, sink_of, text_of, status_inv, pc_of,
    thread_of, pc_wait, pc_exit, pc_spawn in *.

(** Split on the position of [main]; positions past the last one are
    excluded by the bound in the context. *)
Ltac case_pc pc := destruct pc as [|pc]; [ | first [ lia | case_pc pc ] ].

Ltac snoc_rw :=
  rewrite ?fd_log_snoc, ?spawned_snoc, ?failed_snoc, ?handler_called_snoc, ?Forall_app,
    ?Forall_singleton, ?length_app, ?app_nil_r, ?Nat.add_0_r, ?orb_false_r, ?orb_true_r.

(** The process table holds no child or exactly one. *)
Ltac one_child ps :=
  match goal with
  | H : length ps = 1 |- _ =>
      let c := fresh "c" in
      destruct ps as [|c [|? ?]]; [discriminate H| |discriminate H];
      destruct c as [cargs cenv cflags cout cerr crc cterm]
  | H : length ps = 0 |- _ => destruct ps; [|discriminate H]
  end.

Ltac open_hyps :=
  repeat match goal with
         | H : ∃ _, _ |- _ => destruct H
         | H : _ ∧ _ |- _ => destruct H
         end.

Ltac thread_case o :=
  let tg := fresh "tg" in let dm := fresh "dm" in let tpc := fresh "tpc" in
  destruct o as [[tg dm tpc]|]; simpl in *; open_hyps; subst;
  try (exfalso; lia).

Ltac open_inv := unfold_inv; simpl in *; open_hyps; simplify_eq/=.

Ltac goal_decide :=
  match goal with |- context [decide ?P] => destruct (decide P); simplify_eq end.

(** Split on what the environment answers: whether the child has exited,
    whether [terminate] raises, whether the spawn fails. *)
Ltac oracle_cases :=
  repeat match goal with
         | |- context [match ?x with Some _ => _ | None => _ end] =>
             is_var x; destruct x; simpl
         | |- context [terminate_fault ?w] => destruct (terminate_fault w); simpl
         | |- context [spawn_error ?w] => destruct (spawn_error w) eqn:?; simpl
         end;
  rewrite ?andb_false_r; simpl.

(** Split on whether a stream operation fails. *)
Ltac fault_cases :=
  repeat match goal with
         | |- context [write_fault ?w ?r ?n] => destruct (write_fault w r n) eqn:?; simpl
         | |- context [bool_decide ?P] => destruct (bool_decide_reflect P); simpl
         end.

Ltac case_next :=
  match goal with
  | |- context [next ?fa ?f] =>
      let Hn := fresh "Hn" in
      pose proof (next_inv fa f) as Hn;
      destruct (next fa f) as [?|[[? ?]|]]; simpl in *
  end.

(** A thread that leaves [Unstarted] has its source untouched. *)
Ltac start_thread :=
  match goal with
  | H : ?pc = Unstarted ↔ _ |- _ =>
      let E := fresh in
      assert (pc = Unstarted) as E by (apply H; lia); subst pc; simpl in *;
      open_hyps; subst; by exists []
  end.

Ltac rewrite_lines :=
  repeat match goal with
         | H : file_lines _ = _ |- _ => rewrite H; clear H
         | H : rf_text _ = _ |- _ => rewrite H in *; clear H
         | H : fd_log _ _ = _ |- _ => rewrite H; clear H
         end;
  simpl; rewrite ?app_nil_r.

Ltac faulty_goal :=
  unfold faulty; eexists; first [ left; eassumption | right; eassumption ].

Ltac relay_inv_goal :=
  rewrite_lines;
  first
    [ by split
    | by eexists
    | by do 2 eexists
    | by (eexists (_ ++ [_]); split; [by rewrite <- app_assoc | by rewrite line_by_line_snoc])
    | by (split; [faulty_goal | do 2 eexists; split; [reflexivity | left; reflexivity]])
    | by (split; [faulty_goal |
                  do 2 eexists; split; [reflexivity | right; by do 2 eexists]]) ].

Ltac relay_goal Hst :=
  first
    [ done
    | lia
    | by (inversion Hst; subst)
    | by (intros; rewrite fd_log_snoc; try goal_decide; rewrite ?app_nil_r; auto)
    | by (repeat split; first [ lia | done | intros; first [ lia | discriminate ] ])
    | relay_inv_goal ].

(** [pc = Unstarted ↔ n ≤ k] after [main] has moved on. *)
Ltac iff_goal :=
  intros;
  first
    [ lia
    | match goal with H : _ ↔ _ |- _ => apply H; lia end
    | match goal with H : _ ↔ _, E : _ = Unstarted |- _ => apply H in E; lia end ].

Ltac main_goal Hsp Hst Tp :=
  first
    [ done
    | lia
    | by (intros; rewrite ?fd_log_snoc; try goal_decide; rewrite ?app_nil_r; auto)
    | by (intros _; apply Hsp; lia)
    | by inversion Hst
    | by (repeat split; first [ lia | done | tauto ])
    | start_thread
    | by (split; [eapply Forall_impl; [exact Tp|];
                  let H := fresh in let Hp := fresh in
                  intros ? H ? Hp; by apply H in Hp | done])
    | by (repeat split; first [ lia | done | iff_goal ])
    | by (eexists; split; [done | unfold wait_ready; simpl; done])
    | by (left; repeat split; first [ done | lia | congruence ])
    | by (right; left; repeat split; first [ done | lia | congruence ])
    | by (right; right; repeat split; first [ done | lia | congruence ]) ].

Lemma inv_init w : inv w (init w).
Proof.
  split; simpl; try done; unfold_inv; simpl; auto with lia.
Qed.

Lemma inv_main w s : inv w s → status s = Running → inv w (main_step w s).
Proof.
  intros [Hpc Hh Hp Hps Hsp Hst Ho He Hi Hrc Dout Derr Din Doth Tp Tsp Tst] Hrun.
  destruct s as [p h pc rc to te ti si st ps tr]; simpl in *.
  unfold_inv; simpl in *. subst st.
  case_pc pc; simpl in *; subst; one_child ps; simpl in *.
  all: thread_case to; thread_case te; thread_case ti.
  all: open_inv.
  all: unfold_machine; simpl; rewrite ?andb_false_r; simpl.
  all: oracle_cases.
  all: split; unfold_inv; simpl; snoc_rw; simpl.
  all: try (main_goal Hsp Hst Tp; fail).
Qed.

Lemma inv_deliver w sg s : inv w s → status s = Running → inv w (deliver w sg s).
Proof.
  intros [Hpc Hh Hp Hps Hsp Hst Ho He Hi Hrc Dout Derr Din Doth Tp Tsp Tst] Hrun.
  destruct s as [p h pc rc to te ti si st ps tr]; simpl in *.
  unfold_inv; simpl in *. subst st.
  unfold deliver; simpl.
  destruct (decide (sg ∈ h)) as [_|_]; [|by split; unfold_inv; simpl].
  case_pc pc; simpl in *; subst; one_child ps; simpl in *.
  all: thread_case to; thread_case te; thread_case ti.
  all: open_inv.
  all: unfold_machine; simpl; rewrite ?andb_false_r; simpl.
  all: oracle_cases.
  all: split; unfold_inv; simpl; snoc_rw; simpl.
  all: try (main_goal Hsp Hst Tp; fail).
Qed.

Lemma inv_interrupt w s :
  inv w s → status s = Running → main_pc s = pc_wait →
  inv w (main_exec (main_statement w (main_pc s) WaitInterrupted) s).
Proof.
  intros [Hpc Hh Hp Hps Hsp Hst Ho He Hi Hrc Dout Derr Din Doth Tp Tsp Tst] Hrun Hw.
  destruct s as [p h pc rc to te ti si st ps tr]; simpl in *.
  unfold_inv; simpl in *. subst st pc; simpl in *; subst; one_child ps; simpl in *.
  all: thread_case to; thread_case te; thread_case ti.
  all: open_inv.
  all: unfold_machine; simpl; rewrite ?andb_false_r; simpl.
  all: oracle_cases.
  all: split; unfold_inv; simpl; snoc_rw; simpl.
  all: try (main_goal Hsp Hst Tp; fail).
Qed.

Lemma inv_child_exit w pid code s : inv w s → inv w (child_exit pid code s).
Proof.
  intros [Hpc Hh Hp Hps Hsp Hst Ho He Hi Hrc Dout Derr Din Doth Tp Tsp Tst].
  destruct s as [p h pc rc to te ti si st ps tr]; simpl in *.
  unfold child_exit; simpl.
  destruct (ps !! pid) as [c|] eqn:Hc; [|by split].
  destruct (c_returncode c) eqn:Hr; [by split|].
  unfold_inv; simpl in *.
  destruct (decide (2 < pc)); simpl in *; one_child ps; [|done].
  destruct pid; [|done]. simpl in *. simplify_eq/=.
  split; unfold_inv; simpl; rewrite ?decide_True by lia; simpl; try done.
  - inversion Hst; subst. by constructor.
  - destruct (decide (pc = 11)); [|done]. by destruct Hrc as (k & _ & ?).
Qed.

(** One statement of a relay thread. *)
Ltac relay_case pc ps Hst Hu n :=
  assert (n < pc) by (destruct (decide (pc ≤ n)) as [Hle|]; [by apply Hu in Hle|lia]);
  destruct (decide (2 < pc)); [|lia]; subst; one_child ps; simpl in *;
  unfold_relay; simpl;
  try case_next;
  fault_cases;
  open_hyps; simplify_eq/=;
  split; unfold_inv; simpl; snoc_rw; rewrite ?decide_True by lia; simpl;
  try (relay_goal Hst; fail).

Lemma inv_relay w slot s : inv w s → inv w (relay_step w slot s).
Proof.
  intros [Hpc Hh Hp Hps Hsp Hst Ho He Hi Hrc Dout Derr Din Doth Tp Tsp Tst].
  destruct s as [p h pc rc to te ti si st ps tr]; simpl in *.
  unfold relay_step, thread_of.
  destruct slot.
  - destruct to as [[tg dm tpc]|]; [|by split].
    unfold_inv; simpl in *. destruct Ho as (Hc & -> & -> & Hu).
    unfold alive; simpl.
    destruct tpc; try (by split; unfold_inv); relay_case pc ps Hst Hu 6.
  - destruct te as [[tg dm tpc]|]; [|by split].
    unfold_inv; simpl in *. destruct He as (Hc & -> & -> & Hu).
    unfold alive; simpl.
    destruct tpc; try (by split; unfold_inv); relay_case pc ps Hst Hu 7.
  - destruct ti as [[tg dm tpc]|]; [|by split].
    unfold_inv; simpl in *. destruct Hi as (Hc & -> & -> & Hu).
    unfold alive; simpl.
    destruct tpc; try (by split; unfold_inv); relay_case pc ps Hst Hu 8.
Qed.

Lemma inv_step w a s : inv w s → inv w (step w a s).
Proof.
  intros H. unfold step.
  destruct a as [|slot|sg| |pid code]; try by apply inv_child_exit.
  - destruct (status s) eqn:E; try done. by apply inv_main.
  - destruct (status s) eqn:E; try done; [by apply inv_relay|].
    pose proof (ti_status _ _ H) as T. unfold status_inv in T. by rewrite E in T.
  - destruct (status s) eqn:E; try done. by apply inv_deliver.
  - destruct (status s) eqn:E; try done. case_decide; [|done]. by apply inv_interrupt.
Qed.

Lemma inv_run_from w sched s : inv w s → inv w (run_from w sched s).
Proof.
  revert s. induction sched as [|a sched IH]; intros s H; [done|].
  simpl. apply IH. by apply inv_step.
Qed.

Lemma inv_run w sched : inv w (run w sched).
Proof. apply inv_run_from, inv_init. Qed.


(* ===================================================================== *)
(** ** Single steps from a reachable state *)
(* ===================================================================== *)

Lemma run_from_cons w a sched s :
  run_from w (a :: sched) s = run_from w sched (step w a s).
Proof. reflexivity. Qed.

Lemma run_from_app w sched sched' s :
  run_from w (sched ++ sched') s = run_from w sched' (run_from w sched s).
Proof. unfold run_from. by rewrite fold_left_app. Qed.

Lemma run_app w sched sched' :
  run w (sched ++ sched') = run_from w sched' (run w sched).
Proof. apply run_from_app. Qed.

Lemma step_main w s : status s = Running → step w Main s = main_step w s.
Proof. intros E. unfold step. by rewrite E. Qed.

Lemma step_relay w slot s :
  status s = Running → step w (Relay slot) s = relay_step w slot s.
Proof. intros E. unfold step. by rewrite E. Qed.

Lemma step_deliver w sg s :
  status s = Running → step w (Deliver sg) s = deliver w sg s.
Proof. intros E. unfold step. by rewrite E. Qed.

Lemma step_child_exit w pid code s :
  step w (ChildExit pid code) s = child_exit pid code s.
Proof. by destruct s. Qed.


(** Once exited, the bridge stays exited with the same status. *)
Lemma exited_stable w a s c : status s = Exited c → status (step w a s) = Exited c.
Proof.
  intros E. unfold step. destruct a; rewrite ?E; try done.
  unfold child_exit. by repeat case_match.
Qed.

Lemma exited_stable_run w sched s c :
  status s = Exited c → status (run_from w sched s) = Exited c.
Proof.
  revert s. induction sched as [|a sched IH]; intros s E; [done|].
  simpl. by apply IH, exited_stable.
Qed.

(** What the statements of [main] do, position by position. *)
Lemma main_step_facts w s :
  inv w s → status s = Running →
  let s' := main_step w s in
  main_pc s ≤ main_pc s' ∧
  (main_pc s < pc_spawn → status s' = Running ∧ main_pc s' = S (main_pc s)) ∧
  (main_pc s = pc_spawn → spawn_error w ≠ None →
     status s' = Exited 1 ∧ failed (trace s') = 1) ∧
  (main_pc s = pc_wait → wait_ready s = None → s' = s) ∧
  (main_pc s = pc_wait → ∀ k, wait_ready s = Some k →
     status s' = Running ∧ main_pc s' = pc_exit ∧ return_code s' = Some k) ∧
  (main_pc s = pc_exit → ∀ k, return_code s = Some k → status s' = Exited k).
Proof.
  intros [Hpc Hh Hp Hps Hsp Hst Ho He Hi Hrc Dout Derr Din Doth Tp Tsp Tst] Hrun.
  destruct s as [p h pc rc to te ti si st ps tr]; simpl in *.
  unfold_inv; simpl in *. subst st.
  case_pc pc; simpl in *; subst; one_child ps; simpl in *.
  all: thread_case to; thread_case te; thread_case ti.
  all: open_inv.
  all: unfold_machine; simpl; rewrite ?andb_false_r; simpl.
  all: oracle_cases.
  all: repeat split; simpl; snoc_rw; simpl; try done; try lia.
  all: try (intros; simplify_eq/=; done).
Qed.

(** Run one statement of relay [slot] from a concrete reachable state. *)
Ltac relay_exec pc ps Hu n :=
  assert (n < pc) by (destruct (decide (pc ≤ n)) as [Hle|]; [by apply Hu in Hle|lia]);
  destruct (decide (2 < pc)); [|lia]; subst; one_child ps; simpl in *;
  unfold_relay; simpl;
  try case_next;
  fault_cases;
  open_hyps; simplify_eq/=.

Ltac relay_cases w slot s tac :=
  let H := fresh "Hinv" in
  intros H;
  destruct H as [Hpc Hh Hp Hps Hsp Hst Ho He Hi Hrc Dout Derr Din Doth Tp Tsp Tst];
  destruct s as [p h pc rc to te ti si st ps tr]; simpl in *;
  unfold relay_step, thread_of;
  destruct slot;
  [ destruct to as [[tg dm tpc]|]; [|tac];
    unfold_inv; simpl in *; destruct Ho as (Hc & -> & -> & Hu);
    unfold alive; simpl;
    destruct tpc; try tac; relay_exec pc ps Hu 6; try tac
  | destruct te as [[tg dm tpc]|]; [|tac];
    unfold_inv; simpl in *; destruct He as (Hc & -> & -> & Hu);
    unfold alive; simpl;
    destruct tpc; try tac; relay_exec pc ps Hu 7; try tac
  | destruct ti as [[tg dm tpc]|]; [|tac];
    unfold_inv; simpl in *; destruct Hi as (Hc & -> & -> & Hu);
    unfold alive; simpl;
    destruct tpc; try tac; relay_exec pc ps Hu 8; try tac ].

(** A relay statement touches nothing the exit status is decided from. *)
Lemma relay_step_ctl w slot s : inv w s → ctl (relay_step w slot s) = ctl s.
Proof. relay_cases w slot s ltac:(done). Qed.

(** A relay statement touches nothing that belongs to another relay. *)
Lemma relay_step_rview w slot r s :
  inv w s → r ≠ slot → rview r (relay_step w slot s) = rview r s.
Proof.
  intros H Hne. revert H.
  relay_cases w slot s
    ltac:(by (destruct r; try done; unfold rview; simpl; rewrite ?fd_log_snoc; simpl;
              rewrite ?app_nil_r)).
Qed.

Ltac list_mem := repeat first [ apply list_elem_of_here | apply list_elem_of_further ].

(** What a delivered signal does once its handler is installed. *)
Lemma deliver_facts w sg s :
  inv w s → status s = Running → sg ∈ handlers s →
  let s' := deliver w sg s in
  status s' = Exited 0 ∧
  main_pc s' = main_pc s ∧ proc s' = proc s ∧
  terminations (trace s') =
    terminations (trace s) + (if child_running s then 1 else 0) ∧
  (child_running s = true →
     ∃ pid, proc s = Some pid ∧
       trace s' = trace s ++ [EvHandler (Some sg); EvPoll pid;
                              EvTerminate pid (negb (terminate_fault w)); EvExit 0]) ∧
  (proc s = None → trace s' = trace s ++ [EvHandler (Some sg); EvExit 0]) ∧
  last (trace s') = Some (EvExit 0) ∧
  waits (trace s') = waits (trace s) ∧
  c_returncode <$> procs s' = c_returncode <$> procs s ∧
  length (procs s') = length (procs s).
Proof.
  intros [Hpc Hh Hp Hps Hsp Hst Ho He Hi Hrc Dout Derr Din Doth Tp Tsp Tst] Hrun Hsg.
  destruct s as [p h pc rc to te ti si st ps tr]; simpl in *.
  unfold_inv; simpl in *. subst st.
  unfold deliver; simpl. rewrite decide_True by done. clear Hsg.
  case_pc pc; simpl in *; subst; one_child ps; simpl in *.
  all: thread_case to; thread_case te; thread_case ti.
  all: open_inv.
  all: unfold_machine; unfold child_running; simpl; rewrite ?andb_false_r; simpl.
  all: oracle_cases.
  all: repeat split; simpl;
         rewrite ?terminations_snoc, ?waits_snoc, ?last_snoc, <- ?app_assoc;
         simpl; try done; try lia.
  all: try (intros; eexists; split; reflexivity).
Qed.

(** What KeyboardInterrupt inside [proc.wait()] does. *)
Lemma interrupt_facts w s :
  inv w s → status s = Running → main_pc s = pc_wait →
  let s' := main_exec (main_statement w (main_pc s) WaitInterrupted) s in
  status s' = Exited 0 ∧ main_pc s' = main_pc s ∧ proc s' = proc s.
Proof.
  intros [Hpc Hh Hp Hps Hsp Hst Ho He Hi Hrc Dout Derr Din Doth Tp Tsp Tst] Hrun Hw.
  destruct s as [p h pc rc to te ti si st ps tr]; simpl in *.
  unfold_inv; simpl in *. subst st pc; simpl in *; subst; one_child ps; simpl in *.
  thread_case to; thread_case te; thread_case ti.
  unfold_machine; simpl; rewrite ?andb_false_r; simpl.
  oracle_cases; done.
Qed.

(** [main] never goes back, and the global [proc] is never unset. *)
Lemma main_pc_mono w a s : inv w s → main_pc s ≤ main_pc (step w a s).
Proof.
  intros H. unfold step.
  destruct a as [|slot|sg| |pid code], (status s) eqn:E; try done.
  all: try (unfold child_exit; repeat case_match; done).
  - by destruct (main_step_facts w s H E) as (? & _).
  - pose proof (relay_step_ctl w slot s H) as Hc. unfold ctl in Hc. simplify_eq. lia.
  - pose proof (ti_status _ _ H) as T. unfold status_inv in T. by rewrite E in T.
  - unfold deliver in *. destruct (decide (sg ∈ handlers s)) as [Hin|]; [|done].
    pose proof (deliver_facts w sg s H E Hin) as (_ & Hpc & _).
    unfold deliver in Hpc. rewrite decide_True in Hpc by done. simpl in Hpc. lia.
  - case_decide; [|done].
    by destruct (interrupt_facts w s H E) as (_ & -> & _).
Qed.

Lemma main_pc_mono_run w sched s : inv w s → main_pc s ≤ main_pc (run_from w sched s).
Proof.
  revert s. induction sched as [|a sched IH]; intros s H; [done|].
  rewrite run_from_cons. etrans; [by apply (main_pc_mono w a)|].
  by apply IH, inv_step.
Qed.


(* ===================================================================== *)
(** ** Exit status (lines 70-76) *)
(* ===================================================================== *)







(* ===================================================================== *)
(** ** Signals (lines 10-16, 20-21) *)
(* ===================================================================== *)



(** C9. A signal that arrives while its handler is installed and the
    global [proc] is still [None] makes the bridge exit with status 0; the
    handler neither polls nor sends a termination request, and no process
    exists to receive one. *)
Theorem signal_before_spawn_exits_quietly w sched sg :
  let s := run w sched in
  status s = Running → sg ∈ handlers s → proc s = None →
  let s' := step w (Deliver sg) s in
  status s' = Exited 0 ∧
  trace s' = trace s ++ [EvHandler (Some sg); EvExit 0] ∧
  terminations (trace s') = terminations (trace s) ∧
  procs s' = [].
Proof.
  intros s Hrun Hsg Hproc s'. pose proof (inv_run w sched) as Hinv. fold s in Hinv.
  subst s'. rewrite step_deliver by done.
  pose proof (deliver_facts w sg s Hinv Hrun Hsg)
    as (? & ? & ? & Ht & _ & Htr & _ & _ & _ & Hlen).
  assert (procs s = []) as Hps.
  { pose proof (ci_proc _ _ Hinv) as Hp. pose proof (ci_procs _ _ Hinv) as Hl.
    destruct (decide (pc_spawn < main_pc s)); [congruence|].
    by destruct (procs s). }
  repeat split; [done|by apply Htr| |].
  - rewrite Ht. unfold child_running. rewrite Hps. simpl. lia.
  - rewrite Hps in Hlen. by destruct (procs (deliver w sg s)).
Qed.

Lemma signal_before_spawn_exits_quietly_witness :
  status (step quiet_world (Deliver SIGINT) (run quiet_world [Main; Main])) = Exited 0 ∧
  trace (step quiet_world (Deliver SIGINT) (run quiet_world [Main; Main])) =
    [EvHandler (Some SIGINT); EvExit 0].
Proof.
  pose proof (signal_before_spawn_exits_quietly quiet_world [Main; Main] SIGINT
                eq_refl) as H.
  destruct H as (H1 & H2 & _); [vm_compute; list_mem | reflexivity |].
  split; [exact H1 | exact H2].
Defined.


(* ===================================================================== *)
(** ** The spawn (lines 23-32) *)
(* ===================================================================== *)

Lemma spawn_error_early w e s : inv w s → spawn_error w = Some e → main_pc s ≤ pc_spawn.
Proof.
  intros H He. destruct (decide (pc_spawn < main_pc s)) as [Hlt|]; [|lia].
  apply (ci_spawned _ _ H) in Hlt. congruence.
Qed.

Lemma no_child_early w s : inv w s → main_pc s ≤ pc_spawn → procs s = [] ∧ proc s = None.
Proof.
  intros H Hle. pose proof (ci_proc _ _ H) as Hp. pose proof (ci_procs _ _ H) as Hl.
  destruct (decide (pc_spawn < main_pc s)); [lia|].
  split; [by destruct (procs s)|done].
Qed.

(** Before a child exists no relay thread exists and nothing was relayed. *)
Lemma no_output_early w s f : inv w s → main_pc s ≤ pc_spawn → fd_log f (trace s) = [].
Proof.
  intros H Hle. destruct (no_child_early w s H Hle) as [Hps _].
  destruct f as [| |[|pid]]; [| | |by apply (di_other _ _ H)].
  - pose proof (di_out _ _ H) as D. unfold relay_data, source_of in D.
    rewrite Hps in D. by destruct D.
  - pose proof (di_err _ _ H) as D. unfold relay_data, source_of in D.
    rewrite Hps in D. by destruct D.
  - pose proof (di_in _ _ H) as D. pose proof (ci_in _ _ H) as C.
    unfold relay_data, source_of, thread_ctrl, pc_spawn in *.
    destruct (thread_of In s); [lia|]. by destruct D.
Qed.

Lemma relay_step_early w slot s : inv w s → main_pc s ≤ pc_spawn → relay_step w slot s = s.
Proof.
  intros H Hle. unfold relay_step.
  pose proof (ci_out _ _ H). pose proof (ci_err _ _ H). pose proof (ci_in _ _ H).
  unfold thread_ctrl, thread_of, pc_spawn in *.
  destruct slot.
  - destruct (t_out s); [lia|done].
  - destruct (t_err s); [lia|done].
  - destruct (t_in s); [lia|done].
Qed.

Lemma spawn_failure_progress w e sched s :
  inv w s → spawn_error w = Some e → status s = Running →
  uninterrupted sched = true → 3 ≤ main_pc s + mains sched →
  status (run_from w sched s) = Exited 1.
Proof.
  revert s. induction sched as [|a sched IH]; intros s Hinv He Hrun Hun Hm.
  { pose proof (spawn_error_early w e s Hinv He). unfold pc_spawn in *. simpl in Hm. lia. }
  simpl in Hun. apply andb_prop in Hun as [Ha Hun].
  pose proof (spawn_error_early w e s Hinv He) as Hle.
  rewrite run_from_cons. destruct a as [|slot|sg| |pid code]; simpl in Ha, Hm; try done.
  - rewrite step_main by done.
    destruct (main_step_facts w s Hinv Hrun) as (_ & Hlt & Heq & _).
    destruct (decide (main_pc s = pc_spawn)) as [E|].
    + apply exited_stable_run. apply Heq; [done|congruence].
    + destruct Hlt as [? Hpc]; [lia|].
      apply (IH _ (inv_main _ _ Hinv Hrun)); [done|done|done|rewrite Hpc; lia].
  - rewrite step_relay, relay_step_early by done. by apply IH.
  - rewrite step_child_exit. unfold child_exit.
    destruct (no_child_early w s Hinv Hle) as [-> _]. simpl. by apply IH.
Qed.

(** C3. When the spawn fails, the bridge exits with status 1, which is not
    zero: as soon as the main thread has run its first three statements
    without being interrupted; whenever the failed attempt is on the trace
    the exit status 1 is there too.  Nothing is ever written to the bridge's
    stdout or stderr or to a child, no process exists, and the spawn
    operation is attempted at most once. *)
Theorem spawn_failure_is_fatal w e sched :
  spawn_error w = Some e →
  let s := run w sched in
  (uninterrupted sched = true → 3 ≤ mains sched → status s = Exited 1) ∧
  (failed (trace s) = 1 → status s = Exited 1) ∧
  (∀ c, status s = Exited c → failed (trace s) = 1 → c ≠ 0%Z) ∧
  (∀ f, fd_log f (trace s) = []) ∧
  spawned (trace s) + failed (trace s) ≤ 1 ∧
  procs s = [].
Proof.
  intros He s. pose proof (inv_run w sched) as Hinv. fold s in Hinv.
  pose proof (spawn_error_early w e s Hinv He) as Hle.
  destruct (no_child_early w s Hinv Hle) as [Hps Hp].
  pose proof (ti_status _ _ Hinv) as Hst. pose proof (ti_spawned _ _ Hinv) as Hsp.
  unfold status_inv, pc_spawn, pc_exit in *. rewrite Hps in Hsp. simpl in Hsp.
  split; [|split; [|split; [|split; [|split]]]].
  - intros Hun Hm. apply (spawn_failure_progress w e); auto using inv_init.
  - intros Hf. destruct (status s); try (destruct Hst; lia).
    destruct Hst as [(? & ? & ?)|[(? & ? & -> & ?)|(? & ? & ? & ?)]]; [lia|done|lia].
  - intros c Hc Hf. rewrite Hc in Hst.
    destruct Hst as [(? & ? & ?)|[(? & ? & -> & ?)|(? & ? & ? & ?)]]; [lia|done|lia].
  - intros f. by apply (no_output_early w).
  - destruct (status s); [lia|done| |lia].
    destruct Hst as [(? & ? & ?)|[(? & ? & ?)|(? & ? & ?)]]; lia.
  - done.
Qed.

Lemma spawn_failure_is_fatal_witness :
  status (run missing_world [Main; Main; Relay Out; Main; Main]) = Exited 1 ∧
  fd_log Stdout (trace (run missing_world [Main; Main; Relay Out; Main; Main])) = [].
Proof.
  pose proof (spawn_failure_is_fatal missing_world ENOENT
                [Main; Main; Relay Out; Main; Main] eq_refl) as (H1 & _ & _ & H4 & _).
  split; [apply H1; [reflexivity | simpl; lia] | apply H4].
Defined.

(** C7. Every process the bridge has spawned runs in exactly the bridge's
    environment: the two mappings are equal, so every name has the same
    value, or no value, in both.  After a successful spawn there is such a
    process. *)
Theorem child_environment_is_bridge_environment w sched :
  let s := run w sched in
  (∀ c, c ∈ procs s →
     c_env c = os_environ w ∧ ∀ name, c_env c !! name = os_environ w !! name) ∧
  (∀ pid, proc s = Some pid → ∃ c, procs s !! pid = Some c ∧ c_env c = os_environ w).
Proof.
  intros s. pose proof (inv_run w sched) as Hinv. fold s in Hinv.
  pose proof (ci_static _ _ Hinv) as Hst. rewrite Forall_forall in Hst.
  split.
  - intros c Hc. destruct (Hst c Hc) as (_ & E & _). split; [done|]. by rewrite E.
  - intros pid Hp. pose proof (ci_proc _ _ Hinv) as Hp'. pose proof (ci_procs _ _ Hinv) as Hl.
    destruct (decide (pc_spawn < main_pc s)); [|congruence].
    destruct (procs s) as [|c [|? ?]] eqn:E; simplify_eq/=.
    exists c. split; [done|]. destruct (Hst c) as (_ & ? & _); [list_mem|done].
Qed.

(** C8. At most one child process ever exists.  The process table never
    holds more than one entry; the spawn operation is attempted at most
    once in any execution and has succeeded exactly once as soon as [main]
    is past it; once [proc] holds a handle it holds that same handle in
    every later state; and every poll, termination request, wait and write
    to a child's stdin on the trace is addressed to the process [proc]
    holds, which is the only entry of the process table. *)
Theorem at_most_one_child w sched :
  let s := run w sched in
  length (procs s) ≤ 1 ∧
  spawned (trace s) + failed (trace s) ≤ 1 ∧
  (pc_spawn < main_pc s →
     spawned (trace s) = 1 ∧ failed (trace s) = 0 ∧ ∃ c, proc s = Some 0 ∧ procs s = [c]) ∧
  (∀ sched' p, proc s = Some p → proc (run_from w sched' s) = Some p) ∧
  Forall (fun e => ∀ p, event_pid e = Some p → proc s = Some p) (trace s) ∧
  (∀ pid c, procs s !! pid = Some c → proc s = Some pid).
Proof.
  intros s. pose proof (inv_run w sched) as Hinv. fold s in Hinv.
  pose proof (ci_proc _ _ Hinv) as Hp. pose proof (ci_procs _ _ Hinv) as Hl.
  pose proof (ti_status _ _ Hinv) as Hst. pose proof (ti_spawned _ _ Hinv) as Hsp.
  assert (failed (trace s) ≤ 1 ∧ (pc_spawn < main_pc s → failed (trace s) = 0)) as [Hf Hf0].
  { unfold status_inv, pc_spawn in *.
    destruct (status s); [lia|done| |lia].
    destruct Hst as [(? & ? & ?)|[(? & ? & ? & ? & ?)|(? & ? & ?)]]; lia. }
  split; [|split; [|split; [|split; [|split]]]].
  - destruct (decide _); lia.
  - destruct (decide (pc_spawn < main_pc s)) as [Hlt|]; [rewrite (Hf0 Hlt)|]; lia.
  - intros Hlt. destruct (decide (pc_spawn < main_pc s)); [|done].
    split; [lia|]. split; [auto|].
    destruct (procs s) as [|c [|? ?]]; simplify_eq/=. eauto.
  - intros sched' p Hs.
    destruct (decide (pc_spawn < main_pc s)) as [Hlt|]; [|congruence].
    pose proof (main_pc_mono_run w sched' s Hinv) as Hm.
    rewrite (ci_proc _ _ (inv_run_from w sched' s Hinv)).
    rewrite decide_True by lia. congruence.
  - apply (ti_pids _ _ Hinv).
  - intros pid c Hc. apply lookup_lt_Some in Hc.
    destruct (decide (pc_spawn < main_pc s)); [|lia].
    rewrite Hp. f_equal. lia.
Qed.

(* ===================================================================== *)
(** ** Daemon threads and exit (lines 62-68, 76) *)
(* ===================================================================== *)




(* ===================================================================== *)
(** ** The relays (lines 34-60) *)
(* ===================================================================== *)

Lemma relay_data_of w s r : inv w s → relay_data w r s.
Proof. intros H. destruct r; [apply (di_out _ _ H)|apply (di_err _ _ H)|apply (di_in _ _ H)]. Qed.

(** What a sink has received is always a prefix of what its relay's source
    carries, each line flushed before the next one is written. *)
Lemma relay_log_shape w s r :
  inv w s →
  ∃ done rest,
    file_lines (text_of w r) = done ++ rest ∧
    (fd_log (sink_of r) (trace s) = line_by_line done ∨
     ∃ l rest', rest = l :: rest' ∧
                fd_log (sink_of r) (trace s) = line_by_line done ++ [Wr l]).
Proof.
  intros H. pose proof (relay_data_of w s r H) as D. unfold relay_data in D.
  destruct (source_of r s) as [f|].
  2: { destruct D as [-> _]. exists []. eexists. split; [reflexivity|by left]. }
  unfold relay_inv in D. destruct (pc_of (thread_of r s)) as [| |l| |[| |e]|]; try done.
  - destruct D as [_ ->]. exists []. eexists. split; [reflexivity|by left].
  - destruct D as (done & E & ->). exists done. eexists. split; [exact E|by left].
  - destruct D as (done & E & ->). exists done. eexists. split; [exact E|by left].
  - destruct D as (done & l & E & ->). exists done. eexists. split; [exact E|right]. eauto.
  - destruct D as (_ & ->). exists (file_lines (text_of w r)), [].
    rewrite app_nil_r. split; [done|by left].
  - destruct D as (_ & done & rest & E & D). by exists done, rest.
Qed.



(** A relay stops early only when a stream operation failed. *)
Lemma relay_finish w s r why :
  inv w s → pc_of (thread_of r s) = Finished why →
  why = EndOfStream ∨ ∃ e, why = Swallowed e ∧ faulty w r.
Proof.
  intros H Hpc. pose proof (relay_data_of w s r H) as D. unfold relay_data in D.
  rewrite Hpc in D. destruct (source_of r s); [|by destruct D].
  destruct why as [| |e]; [by left|done|right]. exists e. by destruct D.
Qed.



Lemma child_exit_rview r pid code s : rview r (child_exit pid code s) = rview r s.
Proof.
  unfold child_exit. destruct (procs s !! pid) as [c|] eqn:E; [|done].
  destruct (c_returncode c); [done|].
  unfold rview, source_of. destruct s as [p h pc rc to te ti si st ps tr]; simpl in *.
  destruct r; simpl; [| |done].
  - do 2 f_equal. rewrite list_lookup_alter.
    destruct (decide (pid = 0)) as [->|]; [|done]. by rewrite E.
  - do 2 f_equal. rewrite list_lookup_alter.
    destruct (decide (pid = 0)) as [->|]; [|done]. by rewrite E.
Qed.










(* ===================================================================== *)
(** ** Two runs that differ in stream failures *)
(* ===================================================================== *)














(* ===================================================================== *)
(** ** What the relays guarantee *)
(* ===================================================================== *)








(* ===================================================================== *)
(** ** Stream failures stay inside their relay *)
(* ===================================================================== *)











(* ===================================================================== *)
(** ** Further properties of the script *)
(* ===================================================================== *)

(** A statement of [main] leaves the bridge running or ends it through the
    interpreter's exit; it never ends it the way an unhandled signal does. *)
Lemma main_step_status w s :
  inv w s → status s = Running →
  status (main_step w s) = Running ∨ ∃ c, status (main_step w s) = Exited c.
Proof.
  intros [Hpc Hh Hp Hps Hsp Hst Ho He Hi Hrc Dout Derr Din Doth Tp Tsp Tst] Hrun.
  destruct s as [p h pc rc to te ti si st ps tr]; simpl in *.
  unfold_inv; simpl in *. subst st.
  case_pc pc; simpl in *; subst; one_child ps; simpl in *.
  all: thread_case to; thread_case te; thread_case ti.
  all: open_inv.
  all: unfold_machine; simpl; rewrite ?andb_false_r; simpl.
  all: oracle_cases.
  all: first [ by left | by right; eexists ].
Qed.







Lemma status_of_ctl s s' : ctl s = ctl s' → status s = status s'.
Proof. unfold ctl. intros ?. by simplify_eq. Qed.








(** What the steps do to the relay threads. *)
Lemma main_step_threads w s r :
  inv w s → status s = Running →
  pc_of (thread_of r (main_step w s)) = pc_of (thread_of r s) ∨
  pc_of (thread_of r (main_step w s)) = AtFor.
Proof.
  intros [Hpc Hh Hp Hps Hsp Hst Ho He Hi Hrc Dout Derr Din Doth Tp Tsp Tst] Hrun.
  destruct s as [p h pc rc to te ti si st ps tr]; simpl in *.
  unfold_inv; simpl in *. subst st.
  case_pc pc; simpl in *; subst; one_child ps; simpl in *.
  all: thread_case to; thread_case te; thread_case ti.
  all: open_inv.
  all: unfold_machine; simpl; rewrite ?andb_false_r; simpl.
  all: oracle_cases.
  all: destruct r; simpl; first [ by left | by right ].
Qed.

Lemma deliver_threads w sg s r :
  inv w s → status s = Running →
  thread_of r (deliver w sg s) = thread_of r s.
Proof.
  intros [Hpc Hh Hp Hps Hsp Hst Ho He Hi Hrc Dout Derr Din Doth Tp Tsp Tst] Hrun.
  destruct s as [p h pc rc to te ti si st ps tr]; simpl in *.
  unfold_inv; simpl in *. subst st.
  unfold deliver; simpl.
  match goal with |- context [decide (?x ∈ ?l)] => destruct (decide (x ∈ l)) end;
    [|by destruct r].
  case_pc pc; simpl in *; subst; one_child ps; simpl in *.
  all: thread_case to; thread_case te; thread_case ti.
  all: open_inv.
  all: unfold_machine; simpl; rewrite ?andb_false_r; simpl.
  all: oracle_cases.
  all: by destruct r.
Qed.

Lemma interrupt_threads w s r :
  inv w s → status s = Running → main_pc s = pc_wait →
  thread_of r (main_exec (main_statement w (main_pc s) WaitInterrupted) s) = thread_of r s.
Proof.
  intros [Hpc Hh Hp Hps Hsp Hst Ho He Hi Hrc Dout Derr Din Doth Tp Tsp Tst] Hrun Hw.
  destruct s as [p h pc rc to te ti si st ps tr]; simpl in *.
  unfold_inv; simpl in *. subst st pc; simpl in *; subst; one_child ps; simpl in *.
  thread_case to; thread_case te; thread_case ti.
  unfold_machine; simpl; rewrite ?andb_false_r; simpl.
  oracle_cases.
  all: by destruct r.
Qed.

Lemma next_error fault f e : next fault f = inl e → e = OSError EIO.
Proof. unfold next. destruct (fault (rf_pos f)); [congruence|]. by repeat case_match. Qed.

Ltac case_next_eq :=
  match goal with
  | |- context [next ?fa ?f] =>
      let En := fresh "En" in
      destruct (next fa f) as [?|[[? ?]|]] eqn:En; simpl in *;
      try (apply next_error in En; subst)
  end.

Ltac relay_exec_eq pc ps Hu n :=
  assert (n < pc) by (destruct (decide (pc ≤ n)) as [Hle|]; [by apply Hu in Hle|lia]);
  destruct (decide (2 < pc)); [|lia]; subst; one_child ps; simpl in *;
  unfold_relay; simpl;
  try case_next_eq;
  fault_cases;
  open_hyps; simplify_eq/=.

Ltac swallowed_goal :=
  simpl; intros ? ?; first [ by left | right; simplify_eq; by (left + right) ].

Lemma relay_step_swallowed w slot s :
  inv w s →
  ∀ e, pc_of (thread_of slot (relay_step w slot s)) = Finished (Swallowed e) →
       pc_of (thread_of slot s) = Finished (Swallowed e) ∨ stream_error e.
Proof.
  intros [Hpc Hh Hp Hps Hsp Hst Ho He Hi Hrc Dout Derr Din Doth Tp Tsp Tst].
  destruct s as [p h pc rc to te ti si st ps tr]; simpl in *.
  unfold relay_step, thread_of.
  destruct slot.
  - destruct to as [[tg dm tpc]|]; [|swallowed_goal].
    unfold_inv; simpl in *. destruct Ho as (Hc & -> & -> & Hu).
    unfold alive; simpl.
    destruct tpc; try swallowed_goal; relay_exec_eq pc ps Hu 6; swallowed_goal.
  - destruct te as [[tg dm tpc]|]; [|swallowed_goal].
    unfold_inv; simpl in *. destruct He as (Hc & -> & -> & Hu).
    unfold alive; simpl.
    destruct tpc; try swallowed_goal; relay_exec_eq pc ps Hu 7; swallowed_goal.
  - destruct ti as [[tg dm tpc]|]; [|swallowed_goal].
    unfold_inv; simpl in *. destruct Hi as (Hc & -> & -> & Hu).
    unfold alive; simpl.
    destruct tpc; try swallowed_goal; relay_exec_eq pc ps Hu 8; swallowed_goal.
Qed.

Lemma thread_of_rview r s s' : rview r s = rview r s' → thread_of r s = thread_of r s'.
Proof. unfold rview. congruence. Qed.

Lemma swallowed_step w a s : inv w s → swallowed_ok s → swallowed_ok (step w a s).
Proof.
  intros H IH r e. unfold swallowed_ok in IH. unfold step.
  destruct a as [|slot|sg| |pid code].
  - destruct (status s) eqn:E; try apply IH.
    intros Hf. destruct (main_step_threads w s r H E) as [Eq|Eq]; rewrite Eq in Hf;
      [by apply (IH r)|done].
  - destruct (status s) eqn:E; try apply IH.
    + destruct (decide (r = slot)) as [->|Hne].
      * intros Hf. destruct (relay_step_swallowed w slot s H e Hf); [by apply (IH slot)|done].
      * rewrite (thread_of_rview _ _ _ (relay_step_rview w slot r s H Hne)). apply IH.
    + pose proof (ti_status _ _ H) as T. unfold status_inv in T. by rewrite E in T.
  - destruct (status s) eqn:E; try apply IH.
    rewrite deliver_threads by done. apply IH.
  - destruct (status s) eqn:E; try apply IH.
    destruct (decide (main_pc s = pc_wait)); [|apply IH].
    rewrite interrupt_threads by done. apply IH.
  - assert (thread_of r (child_exit pid code s) = thread_of r s) as ->
      by apply thread_of_rview, child_exit_rview.
    destruct (status s); apply IH.
Qed.

Lemma swallowed_run w sched : swallowed_ok (run w sched).
Proof.
  assert (∀ s, inv w s → swallowed_ok s → swallowed_ok (run_from w sched s)) as G.
  { induction sched as [|a sched IH]; intros s H Hs; [done|].
    rewrite run_from_cons. apply IH; [by apply inv_step|by apply swallowed_step]. }
  apply G; [apply inv_init|]. by intros [] e.
Qed.



Lemma line_by_line_nonempty ls :
  Forall (fun l => l ≠ EmptyString) ls →
  Forall (fun op => op ≠ Wr EmptyString) (line_by_line ls).
Proof.
  induction 1 as [|l ls Hl _ IH]; simpl; [constructor|].
  constructor; [congruence|]. constructor; [done|exact IH].
Qed.

(** X2. The test [if line == "": break] of the two output relays never
    succeeds: iterating over a stream never yields an empty line, so no
    relay leaves its loop through [break], the line a relay is about to
    write is never empty, and no empty line is ever written to a sink. *)
Theorem empty_line_break_is_dead w sched r :
  pc_of (thread_of r (run w sched)) ≠ Finished Break ∧
  (∀ line, pc_of (thread_of r (run w sched)) = AtWrite line → line ≠ EmptyString) ∧
  Forall (fun op => op ≠ Wr EmptyString) (fd_log (sink_of r) (trace (run w sched))).
Proof.
  pose proof (inv_run w sched) as H.
  pose proof (file_lines_nonempty (text_of w r)) as Hne.
  split; [|split].
  - intros Hpc. by destruct (relay_finish w _ r _ H Hpc) as [?|(? & ? & _)].
  - intros line Hpc. pose proof (relay_data_of w _ r H) as D. unfold relay_data in D.
    rewrite Hpc in D. destruct (source_of r (run w sched)); [|by destruct D].
    destruct D as (done & E & _). rewrite E in Hne.
    apply Forall_app in Hne as [_ Hne]. by inversion Hne.
  - destruct (relay_log_shape w _ r H) as (done & rest & E & [->|(l & rest' & -> & ->)]);
      rewrite E in Hne; apply Forall_app in Hne as [Hd Hr].
    + by apply line_by_line_nonempty.
    + apply Forall_app. split; [by apply line_by_line_nonempty|].
      constructor; [|constructor]. inversion Hr; congruence.
Qed.



Lemma child_exit_handlers pid code s :
  handlers (child_exit pid code s) = handlers s ∧
  status (child_exit pid code s) = status s.
Proof. unfold child_exit. by repeat case_match. Qed.

(** A signal ends the bridge by its default disposition only while no
    handler is installed for it. *)
Lemma killed_step w a s :
  inv w s →
  (∀ sg, status s = Killed sg → sg ∉ handlers s) →
  ∀ sg, status (step w a s) = Killed sg → sg ∉ handlers (step w a s).
Proof.
  intros H IH sg. unfold step.
  destruct a as [|slot|sg'| |pid code].
  - destruct (status s) eqn:E; try (by intros Hk; rewrite E in Hk; apply IH).
    intros Hk. destruct (main_step_status w s H E) as [?|[? ?]]; congruence.
  - destruct (status s) eqn:E; try (by intros Hk; rewrite E in Hk; apply IH).
    + intros Hk. pose proof (status_of_ctl _ _ (relay_step_ctl w slot s H)). congruence.
    + pose proof (ti_status _ _ H) as T. unfold status_inv in T. by rewrite E in T.
  - destruct (status s) eqn:E; try (by intros Hk; rewrite E in Hk; apply IH).
    unfold deliver. destruct (decide (sg' ∈ handlers s)) as [Hin|Hout].
    + pose proof (deliver_facts w sg' s H E Hin) as (Hx & _).
      unfold deliver in Hx. rewrite decide_True in Hx by done. simpl in Hx.
      intros Hk. congruence.
    + simpl. destruct s; simpl in *. by intros [= <-].
  - destruct (status s) eqn:E; try (by intros Hk; rewrite E in Hk; apply IH).
    destruct (decide (main_pc s = pc_wait)) as [Hw|];
      [|by intros Hk; rewrite E in Hk].
    destruct (interrupt_facts w s H E Hw) as (Hx & _). intros Hk. congruence.
  - destruct (child_exit_handlers pid code s) as [-> ->].
    apply IH.
Qed.

Lemma killed_run_from w sched s :
  inv w s →
  (∀ sg, status s = Killed sg → sg ∉ handlers s) →
  ∀ sg, status (run_from w sched s) = Killed sg → sg ∉ handlers (run_from w sched s).
Proof.
  revert s. induction sched as [|a sched IH]; intros s H Hk; [done|].
  rewrite run_from_cons. apply IH; [by apply inv_step|by apply killed_step].
Qed.

Lemma killed_not_installed w sched sg :
  status (run w sched) = Killed sg → sg ∉ handlers (run w sched).
Proof. apply (killed_run_from w sched (init w)); [apply inv_init|done]. Qed.

Lemma handlers_at_mono sg n m : n ≤ m → sg ∈ handlers_at n → sg ∈ handlers_at m.
Proof.
  intros Hle. destruct n as [|[|n]]; simpl.
  - by intros ?%elem_of_nil.
  - intros ->%list_elem_of_singleton. destruct m as [|[|m]]; [lia| |]; simpl; list_mem.
  - destruct m as [|[|m]]; [lia|lia|done].
Qed.

(** X4. The bridge is ended by the default disposition of SIGINT or
    SIGTERM only if the signal arrives before line 20 or 21 has installed
    its handler.  At that moment the spawn has not run: no child exists,
    the process handle is unset and nothing has been relayed. *)
Theorem killed_only_before_handlers w sched sg :
  status (run w sched) = Killed sg →
  (sg ∉ handlers (run w sched)) ∧
  main_pc (run w sched) < pc_spawn ∧
  (sg = SIGINT → main_pc (run w sched) = 0) ∧
  proc (run w sched) = None ∧ procs (run w sched) = [] ∧
  spawned (trace (run w sched)) = 0 ∧
  ∀ f, fd_log f (trace (run w sched)) = [].
Proof.
  intros Hk. pose proof (inv_run w sched) as H.
  pose proof (killed_not_installed w sched sg Hk) as Hout.
  assert (main_pc (run w sched) < pc_spawn ∧ (sg = SIGINT → main_pc (run w sched) = 0))
    as [Hpc H0].
  { rewrite (ci_handlers _ _ H) in Hout. unfold pc_spawn.
    destruct (main_pc (run w sched)) as [|[|n]]; simpl in Hout.
    - split; [lia|done].
    - split; [lia|]. intros ->. exfalso. apply Hout. list_mem.
    - exfalso. apply Hout. destruct sg; list_mem. }
  destruct (no_child_early w _ H) as [Hps Hp]; [lia|].
  split; [done|]. split; [done|]. split; [done|]. split; [done|]. split; [done|].
  split; [by rewrite (ti_spawned _ _ H), Hps|].
  intros f. apply (no_output_early w); [done|lia].
Qed.

Lemma killed_only_before_handlers_witness :
  status (run echo_world [Main; Deliver SIGTERM; Main; Main; Main]) = Killed SIGTERM ∧
  procs (run echo_world [Main; Deliver SIGTERM; Main; Main; Main]) = [].
Proof.
  assert (status (run echo_world [Main; Deliver SIGTERM; Main; Main; Main]) =
          Killed SIGTERM) as Hk by (vm_compute; reflexivity).
  split; [exact Hk|].
  destruct (killed_only_before_handlers echo_world _ SIGTERM Hk)
    as (_ & _ & _ & _ & Hps & _).
  exact Hps.
Defined.

(** X5. A handler, once installed, stays installed: the script never
    resets a signal's disposition.  From then on that signal cannot end
    the bridge by its default disposition, whatever happens next. *)
Theorem installed_handler_is_permanent w sched sg :
  sg ∈ handlers (run w sched) →
  ∀ sched',
    sg ∈ handlers (run_from w sched' (run w sched)) ∧
    status (run_from w sched' (run w sched)) ≠ Killed sg.
Proof.
  intros Hin sched'. pose proof (inv_run w sched) as H.
  pose proof (inv_run_from w sched' _ H) as H'.
  assert (sg ∈ handlers (run_from w sched' (run w sched))) as Hin'.
  { rewrite (ci_handlers _ _ H'). rewrite (ci_handlers _ _ H) in Hin.
    eapply handlers_at_mono; [|exact Hin]. by apply main_pc_mono_run. }
  split; [done|]. intros Hk. rewrite <- run_app in Hk, Hin'.
  by apply (killed_not_installed w (sched ++ sched') sg).
Qed.

Lemma installed_handler_is_permanent_witness :
  SIGINT ∈ handlers (run quiet_world [Main]) ∧
  status (run_from quiet_world [Deliver SIGINT] (run quiet_world [Main])) ≠ Killed SIGINT.
Proof.
  assert (SIGINT ∈ handlers (run quiet_world [Main])) as Hin by (vm_compute; list_mem).
  split; [exact Hin|].
  destruct (installed_handler_is_permanent quiet_world [Main] SIGINT Hin [Deliver SIGINT])
    as [_ Hk].
  exact Hk.
Defined.



(** X7. Whatever the bridge's environment, input and schedule, the child
    is launched with the fixed command line [node
    C:/Users/Shuakami/mcp-mail/dist/index.js] and the creation flag
    CREATE_NO_WINDOW (0x08000000); nothing the bridge does later changes
    what the child was launched with. *)
Theorem child_launch_is_fixed w sched c :
  c ∈ procs (run w sched) →
  c_args c = ["node"; "C:/Users/Shuakami/mcp-mail/dist/index.js"]%string ∧
  c_creationflags c = 0x08000000%Z.
Proof.
  intros Hc. pose proof (ci_static _ _ (inv_run w sched)) as Hst.
  rewrite Forall_forall in Hst. by destruct (Hst c Hc) as (? & _ & ?).
Qed.

Lemma child_launch_is_fixed_witness :
  ∃ c, procs (run echo_world startup) = [c] ∧
       c_args c = ["node"; "C:/Users/Shuakami/mcp-mail/dist/index.js"]%string.
Proof.
  exists (Child command ∅ CREATE_NO_WINDOW (RFile hello 0) (RFile hello 0) None 0).
  assert (procs (run echo_world startup) =
          [Child command ∅ CREATE_NO_WINDOW (RFile hello 0) (RFile hello 0) None 0]) as E
    by (vm_compute; reflexivity).
  split; [exact E|].
  apply (child_launch_is_fixed echo_world startup). rewrite E. apply list_elem_of_here.
Defined.


(** X9. The bare [except: pass] of the relays only ever hides a failed
    stream operation.  A relay runs only after [proc] has been assigned and
    while the child's record exists, so whatever a relay has swallowed is
    the error of a failed read or of a failed write or flush, never an
    [AttributeError] for a [proc] that is still [None]; and the relay's
    source or sink does fail in this world. *)
Theorem swallowed_errors_are_stream_errors w sched r e :
  pc_of (thread_of r (run w sched)) = Finished (Swallowed e) →
  (e = OSError EIO ∨ e = OSError EPIPE) ∧ e ≠ AttributeError ∧ faulty w r ∧
  proc (run w sched) = Some 0.
Proof.
  intros Hpc. pose proof (inv_run w sched) as H.
  pose proof (swallowed_run w sched r e Hpc) as He.
  split; [exact He|]. split; [by destruct He as [->| ->]|]. split.
  - by destruct (relay_finish w _ r _ H Hpc) as [?|(? & _ & ?)].
  - pose proof (ci_proc _ _ H) as Hp.
    destruct (decide (pc_spawn < main_pc (run w sched))) as [|Hle]; [done|].
    assert (pc_of (thread_of r (run w sched)) = Unstarted) as Hu; [|congruence].
    pose proof (ci_out _ _ H) as Co. pose proof (ci_err _ _ H) as Ce.
    pose proof (ci_in _ _ H) as Ci.
    unfold thread_ctrl, pc_of, pc_spawn in *.
    destruct r; simpl in *.
    + destruct (t_out (run w sched)); [lia|done].
    + destruct (t_err (run w sched)); [lia|done].
    + destruct (t_in (run w sched)); [lia|done].
Qed.

Lemma swallowed_errors_are_stream_errors_witness :
  pc_of (thread_of Out (run broken_stdout_world full_run)) =
    Finished (Swallowed (OSError EPIPE)) ∧
  faulty broken_stdout_world Out.
Proof.
  assert (pc_of (thread_of Out (run broken_stdout_world full_run)) =
          Finished (Swallowed (OSError EPIPE))) as Hpc by (vm_compute; reflexivity).
  split; [exact Hpc|].
  destruct (swallowed_errors_are_stream_errors broken_stdout_world full_run Out _ Hpc)
    as (_ & _ & Hf & _).
  exact Hf.
Defined.
